(** * Activity-25-SolidPrinciples: the nav-bar components and their service

    The repository is an Angular tutorial.  Its executable content is one
    injectable service ([NavBarService]), a base component
    ([NavBarComponentComponent]) and a derived component
    ([CustomNavBarComponent]); the README records the earlier stages of the
    same classes (OCP, LSP, ISP) before the final DIP stage that the
    TypeScript files contain.

    The embedding keeps the shape of the program:
    - [console.log] appends one line to the console of the world;
    - objects live in a heap and carry the name of their class and the one
      field the program ever declares ([navBarService]);
    - a class is its decorator's template, its own methods and the class it
      extends; a method call is dispatched on the class of the object it
      is made on and walks that chain, as JavaScript does;
    - a statement completes normally or throws, and a throw is propagated. *)

From stdpp Require Import base strings list gmap.
From Stdlib Require Import Permutation.

Open Scope string_scope.

(** ** The runtime: worlds, completions and the statement monad *)

Abbreviation loc := positive.

(** An object of the program: its class name and the [navBarService]
    property, absent on objects whose constructor never assigns it. *)
Record Obj := mkObj {
  cls : string;
  navBarService : option loc }.

Record World := mkWorld {
  console : list string;
  heap : gmap positive Obj }.

Definition empty_world : World := mkWorld [] ∅.

Inductive Completion (A : Type) : Type :=
| Normal (a : A)
| Throw (e : string).
Arguments Normal {A} a.
Arguments Throw {A} e.

Definition M (A : Type) : Type := World -> Completion A * World.

Definition ret {A} (a : A) : M A := fun w => (Normal a, w).

Definition bind {A B} (c : M A) (k : A -> M B) : M B :=
  fun w =>
    match c w with
    | (Normal a, w') => k a w'
    | (Throw e, w') => (Throw e, w')
    end.

Definition throw {A} (e : string) : M A := fun w => (Throw e, w).

Declare Scope js_scope.
Delimit Scope js_scope with js.
Notation "'let!' x := c 'in' k" := (bind c (fun x => k))
  (at level 10, x name, c at level 100, k at level 200) : js_scope.
Notation "c >> k" := (bind c (fun _ => k))
  (at level 100, k at level 200, right associativity) : js_scope.
Open Scope js_scope.

(** [console.log(s)] *)
Definition console_log (s : string) : M unit :=
  fun w => (Normal tt, mkWorld (console w ++ [s]) (heap w)).

(** The world after the lines [msgs] were logged and nothing else changed. *)
Definition emit (msgs : list string) (w : World) : World :=
  mkWorld (console w ++ msgs) (heap w).

(** The lines logged between [w] and a later world [w']. *)
Definition emitted (w w' : World) : list string :=
  drop (length (console w)) (console w').

(** Reading an object; a dangling reference is a [TypeError]. *)
Definition deref (this : loc) : M Obj :=
  fun w =>
    match heap w !! this with
    | Some o => (Normal o, w)
    | None => (Throw "TypeError: undefined object", w)
    end.

(** [this.navBarService], as the receiver of a method call: an absent
    property is [undefined], and calling a method on it throws. *)
Definition get_navBarService (this : loc) : M loc :=
  let! o := deref this in
  match navBarService o with
  | Some s => ret s
  | None => throw "TypeError: Cannot read properties of undefined"
  end.

(** [this.navBarService = s] *)
Definition set_navBarService (this : loc) (s : loc) : M unit :=
  let! o := deref this in
  fun w => (Normal tt, mkWorld (console w) (<[this := mkObj (cls o) (Some s)]> (heap w))).

(** Allocation of the object that [new C(...)] hands to the constructor. *)
Definition alloc (name : string) : M loc :=
  fun w =>
    let l := fresh (dom (heap w)) in
    (Normal l, mkWorld (console w) (<[l := mkObj name None]> (heap w))).

(** ** Classes and method resolution *)

Record Link := mkLink { href : string; text : string }.

(** [obj.m()]: a call made on whatever object a property or variable holds,
    dispatched on the class of that object when the call runs. *)
Definition Dispatch : Type := loc -> string -> M unit.

(** A method body: it receives the way to make such calls, and [this]. *)
Definition Method : Type := Dispatch -> loc -> M unit.

(** A class declaration: its name, the class it extends, the anchors of its
    [@Component] template (none for an [@Injectable]) and the methods its
    body declares. *)
#[warnings="-register-all"] Inductive Class : Type :=
  mkClass (name : string) (extends : option Class)
          (template : list Link) (methods : list (string * Method)).

Definition name (C : Class) : string := let 'mkClass n _ _ _ := C in n.
Definition extends (C : Class) : option Class := let 'mkClass _ p _ _ := C in p.
Definition template (C : Class) : list Link := let 'mkClass _ _ t _ := C in t.
Definition methods (C : Class) : list (string * Method) := let 'mkClass _ _ _ ms := C in ms.

Fixpoint own_method (m : string) (ms : list (string * Method)) : option Method :=
  match ms with
  | [] => None
  | (n, f) :: ms' => if String.eqb n m then Some f else own_method m ms'
  end.

(** Property lookup along the prototype chain: the class's own method
    first, then its parent's. *)
Fixpoint resolve (C : Class) (m : string) : option Method :=
  match C with
  | mkClass _ parent _ ms =>
      match own_method m ms with
      | Some f => Some f
      | None =>
          match parent with
          | Some P => resolve P m
          | None => None
          end
      end
  end.

(** [C.prototype.m.call(this)]; also what [super.m()] does with the parent
    class for [C]. *)
Definition invoke (C : Class) (m : string) : Method :=
  fun dyn this =>
    match resolve C m with
    | Some f => f dyn this
    | None => throw ("TypeError: " ++ m ++ " is not a function")
    end.

Fixpoint find_class (prog : list Class) (n : string) : option Class :=
  match prog with
  | [] => None
  | C :: prog' => if String.eqb (name C) n then Some C else find_class prog' n
  end.

(** The engine's bound on nested calls.  Engines differ; the program's own
    objects never nest more than two calls, and the properties below hold
    for any bound of at least two. *)
Definition stack_limit : nat := 1024.

(** [this.m()] with [depth] frames left: dispatch on the class of the
    receiver; the calls the body makes have one frame less, and a call with
    no frame left is a [RangeError]. *)
Fixpoint call_depth (prog : list Class) (depth : nat) (this : loc) (m : string)
  : M unit :=
  match depth with
  | 0 => throw "RangeError: Maximum call stack size exceeded"
  | S d =>
      let! o := deref this in
      match find_class prog (cls o) with
      | Some C => invoke C m (call_depth prog d) this
      | None => throw "TypeError: unknown class"
      end
  end.

(** [this.m()] as the host performs it. *)
Definition call (prog : list Class) (this : loc) (m : string) : M unit :=
  call_depth prog stack_limit this m.
Arguments call : simpl never.

(** The capability contracts of the README's [Interface] folder, as the
    method names a class must resolve. *)
Definition LinkDisplay : list string := ["displayLinks"].
Definition NavBarAction : list string := ["ngOnDestroy"].

Definition implements (C : Class) (iface : list string) : bool :=
  forallb (fun m => bool_decide (is_Some (resolve C m))) iface.

(** The link list an instance declares: the template of its class. *)
Definition declared_links (prog : list Class) (w : World) (this : loc) : option (list Link) :=
  match heap w !! this with
  | Some o =>
      match find_class prog (cls o) with
      | Some C => Some (template C)
      | None => None
      end
  | None => None
  end.

(** Membership tests on the heap, used to say which instances a statement
    is about. *)
Definition instance_of (w : World) (this : loc) (n : string) : bool :=
  match heap w !! this with
  | Some o => String.eqb (cls o) n
  | None => false
  end.

(** [this.navBarService] is the object [s]. *)
Definition injected (w : World) (this s : loc) : bool :=
  match heap w !! this with
  | Some o =>
      match navBarService o with
      | Some s' => Pos.eqb s' s
      | None => false
      end
  | None => false
  end.

(** The two component classes of every stage. *)
Inductive Kind := Base | Derived.

Definition kind_name (k : Kind) : string :=
  match k with
  | Base => "NavBarComponentComponent"
  | Derived => "CustomNavBarComponent"
  end.

(** ** The historical stages recorded in the README *)

(** README sections 2 (OCP) and 3 (LSP): the base component logs on
    teardown, the derived component overrides [ngOnDestroy] and chains to
    [super]. *)
Module LSP.

Module NavBarComponentComponent.
Definition links : list Link :=
  [mkLink "#home" "Home"; mkLink "#about" "About";
   mkLink "#services" "Services"; mkLink "#contact" "Contact"].

Definition ngOnDestroy : Method :=
  fun _ this => console_log "Hell Bhie!".

Definition decl : Class :=
  mkClass "NavBarComponentComponent" None links
          [("ngOnDestroy", ngOnDestroy)].

(** No constructor is declared: [new] only allocates. *)
Definition new : M loc := alloc "NavBarComponentComponent".
End NavBarComponentComponent.

Module CustomNavBarComponent.
Definition links : list Link :=
  [mkLink "#home" "Home"; mkLink "#about" "About";
   mkLink "#custom" "Custom Link"; mkLink "#contact" "Contact"].

Definition ngOnDestroy : Method :=
  fun dyn this =>
    invoke NavBarComponentComponent.decl "ngOnDestroy" dyn this >>
    console_log "CustomNavBarComponent is being destroyed with extra cleanup!".

Definition decl : Class :=
  mkClass "CustomNavBarComponent" (Some NavBarComponentComponent.decl) links
          [("ngOnDestroy", ngOnDestroy)].

Definition new : M loc := alloc "CustomNavBarComponent".
End CustomNavBarComponent.

Definition program : list Class :=
  [NavBarComponentComponent.decl; CustomNavBarComponent.decl].

(** The host constructs an instance with [mk] and calls its method [m]. *)
Definition construct_and_call (mk : M loc) (m : string) : M unit :=
  let! c := mk in
  call program c m.

End LSP.

(** README section 4 (ISP): both classes implement [LinkDisplay]; the
    derived component overrides both operations. *)
Module ISP.

Module NavBarComponentComponent.
Definition links : list Link :=
  [mkLink "#home" "Home"; mkLink "#about" "About";
   mkLink "#services" "Services"; mkLink "#contact" "Contact"].

Definition displayLinks : Method :=
  fun _ this => console_log "Displaying default navbar links".

Definition ngOnDestroy : Method :=
  fun _ this => console_log "Hell Bhie!".

Definition decl : Class :=
  mkClass "NavBarComponentComponent" None links
          [("displayLinks", displayLinks); ("ngOnDestroy", ngOnDestroy)].

Definition new : M loc := alloc "NavBarComponentComponent".
End NavBarComponentComponent.

Module CustomNavBarComponent.
Definition links : list Link :=
  [mkLink "#home" "Home"; mkLink "#about" "About";
   mkLink "#custom" "Custom Link"; mkLink "#contact" "Contact"].

Definition displayLinks : Method :=
  fun _ this => console_log "Displaying custom navbar links".

Definition ngOnDestroy : Method :=
  fun dyn this =>
    invoke NavBarComponentComponent.decl "ngOnDestroy" dyn this >>
    console_log "CustomNavBarComponent is being destroyed with extra cleanup!".

Definition decl : Class :=
  mkClass "CustomNavBarComponent" (Some NavBarComponentComponent.decl) links
          [("displayLinks", displayLinks); ("ngOnDestroy", ngOnDestroy)].

Definition new : M loc := alloc "CustomNavBarComponent".
End CustomNavBarComponent.

Definition program : list Class :=
  [NavBarComponentComponent.decl; CustomNavBarComponent.decl].

Definition construct_and_call (mk : M loc) (m : string) : M unit :=
  let! c := mk in
  call program c m.

End ISP.

(** ** The final stage (DIP): the TypeScript sources *)

Module DIP.

(** nav-bar.service.ts *)
Module NavBarService.
Definition displayLinks : Method :=
  fun _ this => console_log "Displaying default navbar links".

Definition ngOnDestroy : Method :=
  fun _ this => console_log "NavBarService cleanup performed!".

Definition constructor (this : loc) : M unit := ret tt.

Definition decl : Class :=
  mkClass "NavBarService" None []
          [("displayLinks", displayLinks); ("ngOnDestroy", ngOnDestroy)].

Definition new : M loc :=
  let! this := alloc "NavBarService" in
  constructor this >>
  ret this.
End NavBarService.

(** nav-bar-component.component.ts.  Both methods call a method on the
    object that [this.navBarService] holds; the call is dispatched on that
    object, whatever its class. *)
Module NavBarComponentComponent.
Definition links : list Link :=
  [mkLink "#home" "Home"; mkLink "#about" "About";
   mkLink "#services" "Services"; mkLink "#contact" "Contact"].

(** [constructor(private navBarService: NavBarService) {}] *)
Definition constructor (this : loc) (navBarService : loc) : M unit :=
  set_navBarService this navBarService.

Definition ngOnDestroy : Method :=
  fun dyn this =>
    let! s := get_navBarService this in
    dyn s "ngOnDestroy" >>
    console_log "NavBarComponent cleanup performed!".

Definition displayLinks : Method :=
  fun dyn this =>
    let! s := get_navBarService this in
    dyn s "displayLinks".

Definition decl : Class :=
  mkClass "NavBarComponentComponent" None links
          [("ngOnDestroy", ngOnDestroy); ("displayLinks", displayLinks)].

Definition new (navBarService : loc) : M loc :=
  let! this := alloc "NavBarComponentComponent" in
  constructor this navBarService >>
  ret this.
End NavBarComponentComponent.

(** The derived component: a constructor that only calls [super], and no
    method of its own (its [ngOnDestroy] is commented out). *)
Module CustomNavBarComponent.
Definition links : list Link :=
  [mkLink "#home" "Home"; mkLink "#about" "About";
   mkLink "#custom" "Custom Link"; mkLink "#contact" "Contact"].

Definition constructor (this : loc) (navBarService : loc) : M unit :=
  NavBarComponentComponent.constructor this navBarService.

Definition decl : Class :=
  mkClass "CustomNavBarComponent" (Some NavBarComponentComponent.decl) links [].

Definition new (navBarService : loc) : M loc :=
  let! this := alloc "CustomNavBarComponent" in
  constructor this navBarService >>
  ret this.
End CustomNavBarComponent.

Definition program : list Class :=
  [NavBarService.decl; NavBarComponentComponent.decl; CustomNavBarComponent.decl].

(** The host provides the service, constructs a component with it through
    [mk] and calls the component's method [m]. *)
Definition new_component (k : Kind) : loc -> M loc :=
  match k with
  | Base => NavBarComponentComponent.new
  | Derived => CustomNavBarComponent.new
  end.

Definition construct (mk : loc -> M loc) : M loc :=
  let! s := NavBarService.new in
  mk s.

Definition construct_and_call (mk : loc -> M loc) (m : string) : M unit :=
  let! c := construct mk in
  call program c m.

(** A component instance of this stage: an object of the base or of the
    derived class whose [navBarService] property is present. *)
Definition component (w : World) (this : loc) : bool :=
  (instance_of w this "NavBarComponentComponent"
   || instance_of w this "CustomNavBarComponent")
  && match heap w !! this with
     | Some o => bool_decide (is_Some (navBarService o))
     | None => false
     end.

(** Any object the host can hold: the service or a component. *)
Definition receiver (w : World) (this : loc) : bool :=
  instance_of w this "NavBarService" || component w this.

(** A component as its constructor is typed to build it: the object its
    [navBarService] property holds is a [NavBarService]. *)
Definition wired (w : World) (this : loc) : bool :=
  component w this
  && match heap w !! this with
     | Some o =>
         match navBarService o with
         | Some s => instance_of w s "NavBarService"
         | None => false
         end
     | None => false
     end.

(** The service, or a component that holds a service. *)
Definition wired_receiver (w : World) (this : loc) : bool :=
  instance_of w this "NavBarService" || wired w this.

End DIP.

(** ** Schedules of calls made by the host *)

Inductive Op := DisplayLinks | NgOnDestroy.

Definition op_name (op : Op) : string :=
  match op with
  | DisplayLinks => "displayLinks"
  | NgOnDestroy => "ngOnDestroy"
  end.

Fixpoint run_calls (prog : list Class) (calls : list (loc * Op)) : M unit :=
  match calls with
  | [] => ret tt
  | (this, op) :: rest =>
      call prog this (op_name op) >>
      run_calls prog rest
  end.

(** The line each operation of [NavBarService] logs, and the lines each
    operation of a component of the final stage logs. *)
Definition service_line (op : Op) : string :=
  match op with
  | DisplayLinks => "Displaying default navbar links"
  | NgOnDestroy => "NavBarService cleanup performed!"
  end.

Definition component_own_lines (op : Op) : list string :=
  match op with
  | DisplayLinks => []
  | NgOnDestroy => ["NavBarComponent cleanup performed!"]
  end.

Definition component_lines (op : Op) : list string :=
  service_line op :: component_own_lines op.

(** What one call logs when it runs alone from the world [w]. *)
Definition effect_of (prog : list Class) (w : World) (c : loc * Op) : list string :=
  emitted w (snd (run_calls prog [c] w)).

(** All receivers of a schedule are among the instances [cs], and every
    instance of [cs] is a component holding the service [s]. *)
Definition shares_service (w : World) (s : loc) (cs : list loc) : bool :=
  forallb (fun c => DIP.component w c && injected w c s) cs.

Definition scheduled_on (cs : list loc) (calls : list (loc * Op)) : bool :=
  forallb (fun c => existsb (Pos.eqb (fst c)) cs) calls.

(** A world as the host of the final stage builds it: the service at 1, a
    base component at 2 and a derived component at 3, both holding the
    service, and nothing logged yet. *)
Definition sample_world : World :=
  mkWorld []
    (<[3%positive := mkObj "CustomNavBarComponent" (Some 1%positive)]>
       (<[2%positive := mkObj "NavBarComponentComponent" (Some 1%positive)]>
          (<[1%positive := mkObj "NavBarService" None]> ∅))).

(** The same classes instantiated by a host of the historical stages, whose
    constructors store nothing. *)
Definition historical_world : World :=
  mkWorld []
    (<[2%positive := mkObj "CustomNavBarComponent" None]>
       (<[1%positive := mkObj "NavBarComponentComponent" None]> ∅)).

(** A world that the typed constructors never build but JavaScript allows:
    the base component at 4 holds the component at 2 where a service is
    expected. *)
Definition nested_world : World :=
  mkWorld []
    (<[4%positive := mkObj "NavBarComponentComponent" (Some 2%positive)]>
       (heap sample_world)).

(** A computation that only logs: whether it completes normally or throws,
    it leaves the heap as it was and only appends to the console. *)
Definition logs_only {A} (c : M A) : Prop :=
  forall w,
    heap (snd (c w)) = heap w /\
    console w `prefix_of` console (snd (c w)).

(** Every method a class can resolve: its own and its ancestors'. *)
Fixpoint all_methods (C : Class) : list Method :=
  match C with
  | mkClass _ parent _ ms =>
      map snd ms ++
      match parent with
      | Some P => all_methods P
      | None => []
      end
  end.

(** The [navBarService] property of the object [this] is absent. *)
Definition unwired (w : World) (this : loc) : bool :=
  match heap w !! this with
  | Some o => bool_decide (navBarService o = None)
  | None => false
  end.

(** * Properties *)

(** ** The runtime *)

Lemma emit_emit msgs1 msgs2 w :
  emit msgs2 (emit msgs1 w) = emit (msgs1 ++ msgs2) w.
Proof. unfold emit; simpl. by rewrite <- app_assoc. Qed.

Lemma emit_nil w : emit [] w = w.
Proof. destruct w; unfold emit; simpl. by rewrite app_nil_r. Qed.

Lemma emitted_emit msgs w : emitted w (emit msgs w) = msgs.
Proof. unfold emitted, emit; simpl. by rewrite drop_app_length. Qed.

Lemma heap_emit msgs w : heap (emit msgs w) = heap w.
Proof. done. Qed.

Lemma console_log_emit s w : console_log s w = (Normal tt, emit [s] w).
Proof. done. Qed.

Lemma instance_of_true w this n :
  instance_of w this n = true <-> exists o, heap w !! this = Some o /\ cls o = n.
Proof.
  unfold instance_of. destruct (heap w !! this) as [o|]; split.
  - intros H. exists o. by apply String.eqb_eq in H.
  - intros (o' & [= <-] & H). by apply String.eqb_eq.
  - done.
  - by intros (o' & [=] & _).
Qed.

Lemma instance_of_emit msgs w this n :
  instance_of (emit msgs w) this n = instance_of w this n.
Proof. done. Qed.

(** A call runs the method that the receiver's class resolves to. *)
Lemma call_depth_dispatch prog d this m w o C f :
  heap w !! this = Some o ->
  find_class prog (cls o) = Some C ->
  resolve C m = Some f ->
  call_depth prog (S d) this m w = f (call_depth prog d) this w.
Proof.
  intros Ho HC Hf. cbn [call_depth]. unfold bind, deref, invoke.
  by rewrite Ho, HC, Hf.
Qed.

(** The host's call has at least two frames. *)
Lemma call_frames prog this m :
  call prog this m = call_depth prog (S (S (stack_limit - 2))) this m.
Proof. reflexivity. Qed.

Lemma call_dispatch prog this m w o C f :
  heap w !! this = Some o ->
  find_class prog (cls o) = Some C ->
  resolve C m = Some f ->
  call prog this m w = f (call_depth prog (S (stack_limit - 2))) this w.
Proof. rewrite call_frames. apply call_depth_dispatch. Qed.

(** ** The final stage: what each call does *)

Lemma DIP_component_inv w this :
  DIP.component w this = true ->
  exists o s,
    heap w !! this = Some o /\
    (cls o = "NavBarComponentComponent" \/ cls o = "CustomNavBarComponent") /\
    navBarService o = Some s.
Proof.
  unfold DIP.component. intros [Hc Hs]%andb_prop.
  apply orb_prop in Hc.
  assert (exists o, heap w !! this = Some o /\
                    (cls o = "NavBarComponentComponent" \/
                     cls o = "CustomNavBarComponent")) as (o & Ho & Hcls).
  { destruct Hc as [(o & ? & ?)%instance_of_true | (o & ? & ?)%instance_of_true];
      exists o; auto. }
  rewrite Ho in Hs. apply bool_decide_eq_true in Hs as [s Hs].
  by exists o, s.
Qed.

Lemma DIP_service_call_depth d w s op :
  instance_of w s "NavBarService" = true ->
  call_depth DIP.program (S d) s (op_name op) w
  = (Normal tt, emit [service_line op] w).
Proof.
  intros (o & Ho & Hcls)%instance_of_true.
  destruct op; cbn [op_name].
  - by rewrite (call_depth_dispatch _ _ _ _ _ o DIP.NavBarService.decl
                  DIP.NavBarService.displayLinks); [| | rewrite Hcls |].
  - by rewrite (call_depth_dispatch _ _ _ _ _ o DIP.NavBarService.decl
                  DIP.NavBarService.ngOnDestroy); [| | rewrite Hcls |].
Qed.

Lemma DIP_service_call w s op :
  instance_of w s "NavBarService" = true ->
  call DIP.program s (op_name op) w = (Normal tt, emit [service_line op] w).
Proof. rewrite call_frames. apply DIP_service_call_depth. Qed.

Lemma DIP_wired_component w this :
  DIP.wired w this = true -> DIP.component w this = true.
Proof. unfold DIP.wired. by intros [? _]%andb_prop. Qed.

Lemma DIP_wired_inv w this :
  DIP.wired w this = true ->
  exists o s,
    heap w !! this = Some o /\
    (cls o = "NavBarComponentComponent" \/ cls o = "CustomNavBarComponent") /\
    navBarService o = Some s /\
    instance_of w s "NavBarService" = true.
Proof.
  unfold DIP.wired. intros [Hc Hs]%andb_prop.
  destruct (DIP_component_inv w this Hc) as (o & s & Ho & Hcls & Hf).
  rewrite Ho, Hf in Hs. by exists o, s.
Qed.

Lemma DIP_wired_intro w this s :
  DIP.component w this = true ->
  injected w this s = true ->
  instance_of w s "NavBarService" = true ->
  DIP.wired w this = true.
Proof.
  intros Hc Hi Hs. unfold DIP.wired. rewrite Hc; simpl.
  unfold injected in Hi. destruct (heap w !! this) as [o|]; [|done].
  destruct (navBarService o) as [s'|]; [|done].
  by apply Pos.eqb_eq in Hi as ->.
Qed.

Lemma DIP_base_displayLinks_body dyn w this o s :
  heap w !! this = Some o -> navBarService o = Some s ->
  DIP.NavBarComponentComponent.displayLinks dyn this w = dyn s "displayLinks" w.
Proof.
  intros Ho Hs.
  unfold DIP.NavBarComponentComponent.displayLinks, get_navBarService, bind, deref.
  rewrite Ho; cbn beta iota. by rewrite Hs.
Qed.

Lemma DIP_base_ngOnDestroy_body dyn w this o s :
  heap w !! this = Some o -> navBarService o = Some s ->
  DIP.NavBarComponentComponent.ngOnDestroy dyn this w
  = (dyn s "ngOnDestroy" >> console_log "NavBarComponent cleanup performed!") w.
Proof.
  intros Ho Hs.
  unfold DIP.NavBarComponentComponent.ngOnDestroy, get_navBarService, bind, deref.
  rewrite Ho; cbn beta iota. by rewrite Hs.
Qed.

Lemma DIP_component_call w this op :
  DIP.wired w this = true ->
  call DIP.program this (op_name op) w = (Normal tt, emit (component_lines op) w).
Proof.
  intros (o & s & Ho & Hcls & Hf & Hs)%DIP_wired_inv.
  assert (exists C, find_class DIP.program (cls o) = Some C /\
            resolve C "displayLinks" = Some DIP.NavBarComponentComponent.displayLinks /\
            resolve C "ngOnDestroy" = Some DIP.NavBarComponentComponent.ngOnDestroy)
    as (C & HC & Hd & Hn).
  { destruct Hcls as [-> | ->].
    - by exists DIP.NavBarComponentComponent.decl.
    - by exists DIP.CustomNavBarComponent.decl. }
  destruct op; cbn [op_name].
  - rewrite (call_dispatch _ _ _ _ o C _ Ho HC Hd).
    rewrite (DIP_base_displayLinks_body _ _ _ o s Ho Hf).
    apply (DIP_service_call_depth _ w s DisplayLinks Hs).
  - rewrite (call_dispatch _ _ _ _ o C _ Ho HC Hn).
    rewrite (DIP_base_ngOnDestroy_body _ _ _ o s Ho Hf).
    unfold bind. rewrite (DIP_service_call_depth _ w s NgOnDestroy Hs).
    unfold console_log, emit; simpl. by rewrite <- app_assoc.
Qed.

(** ** Construction *)

Lemma alloc_fresh w :
  heap w !! fresh (dom (heap w)) = None.
Proof. apply not_elem_of_dom, is_fresh. Qed.

(** [new C(s)] for a class whose constructor stores [s]: one new object,
    nothing logged. *)
Lemma alloc_and_store n s w :
  (let! this := alloc n in set_navBarService this s >> ret this) w
  = (Normal (fresh (dom (heap w))),
     mkWorld (console w) (<[fresh (dom (heap w)) := mkObj n (Some s)]> (heap w))).
Proof.
  unfold bind, alloc, set_navBarService, bind, deref, ret; simpl.
  rewrite lookup_insert_eq; simpl. by rewrite insert_insert_eq.
Qed.

Lemma DIP_new_service w :
  DIP.NavBarService.new w
  = (Normal (fresh (dom (heap w))),
     mkWorld (console w) (<[fresh (dom (heap w)) := mkObj "NavBarService" None]> (heap w))).
Proof. done. Qed.

Lemma DIP_new_base s w :
  DIP.NavBarComponentComponent.new s w
  = (Normal (fresh (dom (heap w))),
     mkWorld (console w)
       (<[fresh (dom (heap w)) := mkObj "NavBarComponentComponent" (Some s)]> (heap w))).
Proof. apply alloc_and_store. Qed.

Lemma DIP_new_custom s w :
  DIP.CustomNavBarComponent.new s w
  = (Normal (fresh (dom (heap w))),
     mkWorld (console w)
       (<[fresh (dom (heap w)) := mkObj "CustomNavBarComponent" (Some s)]> (heap w))).
Proof. apply alloc_and_store. Qed.

Lemma DIP_construct_spec k w :
  exists s c w',
    DIP.construct (DIP.new_component k) w = (Normal c, w') /\
    console w' = console w /\
    instance_of w' s "NavBarService" = true /\
    instance_of w' c (kind_name k) = true /\
    DIP.component w' c = true /\
    injected w' c s = true /\
    DIP.wired w' c = true.
Proof.
  set (s := fresh (dom (heap w))).
  set (w1 := mkWorld (console w) (<[s := mkObj "NavBarService" None]> (heap w))).
  set (c := fresh (dom (heap w1))).
  assert (Hsc : s <> c).
  { intros Heq. pose proof (alloc_fresh w1) as Hf. fold c in Hf.
    rewrite <- Heq in Hf. subst w1; simpl in Hf. by rewrite lookup_insert_eq in Hf. }
  exists s, c, (mkWorld (console w) (<[c := mkObj (kind_name k) (Some s)]> (heap w1))).
  assert (DIP.construct (DIP.new_component k) w
          = (Normal c, mkWorld (console w) (<[c := mkObj (kind_name k) (Some s)]> (heap w1))))
    as ->.
  { unfold DIP.construct, bind. rewrite DIP_new_service. fold s w1.
    destruct k; simpl; [rewrite DIP_new_base | rewrite DIP_new_custom]; done. }
  unfold DIP.wired, DIP.component, instance_of, injected; simpl.
  rewrite lookup_insert_eq, lookup_insert_ne by done.
  rewrite lookup_insert_eq; simpl.
  rewrite lookup_insert_ne by done. rewrite lookup_insert_eq; simpl.
  rewrite Pos.eqb_refl, String.eqb_refl.
  destruct k; simpl; done.
Qed.

Lemma DIP_construct_and_call_spec k op w :
  DIP.construct_and_call (DIP.new_component k) (op_name op) w
  = (Normal tt, emit (component_lines op) (snd (DIP.construct (DIP.new_component k) w))) /\
  console (snd (DIP.construct (DIP.new_component k) w)) = console w.
Proof.
  destruct (DIP_construct_spec k w)
    as (s & c & w' & Hrun & Hcon & _ & _ & _ & _ & Hc).
  unfold DIP.construct_and_call, bind. rewrite Hrun; cbn [fst snd].
  split; [|done]. by apply DIP_component_call.
Qed.

(** The sample worlds are what the hosts build from the empty world. *)
Lemma sample_world_constructed :
  snd ((let! s := DIP.NavBarService.new in
        let! b := DIP.NavBarComponentComponent.new s in
        DIP.CustomNavBarComponent.new s) empty_world)
  = sample_world.
Proof. by vm_compute. Qed.

Lemma historical_world_constructed :
  snd ((LSP.NavBarComponentComponent.new >> LSP.CustomNavBarComponent.new) empty_world)
  = historical_world.
Proof. by vm_compute. Qed.

(** The delegated call is dispatched on the object the property holds: a
    component that holds a component runs that component's teardown, which
    in turn runs the service's, and a component that holds itself exhausts
    the stack. *)
Lemma DIP_nested_component_teardown :
  call DIP.program 4 "ngOnDestroy" nested_world
  = (Normal tt,
     emit ["NavBarService cleanup performed!";
           "NavBarComponent cleanup performed!";
           "NavBarComponent cleanup performed!"] nested_world).
Proof. by vm_compute. Qed.

Lemma DIP_self_reference_overflows :
  fst (call DIP.program 1 "ngOnDestroy"
         (mkWorld [] {[1%positive := mkObj "NavBarComponentComponent" (Some 1%positive)]}))
  = Throw "RangeError: Maximum call stack size exceeded".
Proof. by vm_compute. Qed.

(** ** Method resolution *)

Lemma resolve_own n parent t ms m f :
  own_method m ms = Some f ->
  resolve (mkClass n parent t ms) m = Some f.
Proof. intros H; simpl. by rewrite H. Qed.

Lemma resolve_inherited n P t ms m :
  own_method m ms = None ->
  resolve (mkClass n (Some P) t ms) m = resolve P m.
Proof. intros H; simpl. by rewrite H. Qed.

(** An override hides the parent's method: unless its body chains to
    [super] itself, only the child's body runs. *)
Lemma invoke_override n parent t ms m f :
  own_method m ms = Some f ->
  invoke (mkClass n parent t ms) m = f.
Proof. intros H. unfold invoke. by rewrite (resolve_own _ _ _ _ _ _ H). Qed.

Lemma invoke_inherited n P t ms m :
  own_method m ms = None ->
  invoke (mkClass n (Some P) t ms) m = invoke P m.
Proof. intros H. unfold invoke. by rewrite (resolve_inherited _ _ _ _ _ H). Qed.

(** Every class of the final stage provides both capabilities; the base
    class of the LSP stage has no [displayLinks] yet. *)
Lemma DIP_classes_implement :
  Forall (fun C => implements C LinkDisplay = true /\ implements C NavBarAction = true)
         DIP.program.
Proof. repeat constructor. Qed.

Lemma LSP_base_lacks_LinkDisplay :
  implements LSP.NavBarComponentComponent.decl LinkDisplay = false.
Proof. done. Qed.

(** ** The historical stages: what each call does *)

Lemma LSP_base_ngOnDestroy w this :
  instance_of w this "NavBarComponentComponent" = true ->
  call LSP.program this "ngOnDestroy" w = (Normal tt, emit ["Hell Bhie!"] w).
Proof.
  intros (o & Ho & Hcls)%instance_of_true.
  by rewrite (call_dispatch _ _ _ _ o LSP.NavBarComponentComponent.decl
                LSP.NavBarComponentComponent.ngOnDestroy); [| | rewrite Hcls |].
Qed.

Lemma LSP_custom_ngOnDestroy_body dyn w this :
  LSP.CustomNavBarComponent.ngOnDestroy dyn this w
  = (Normal tt,
     emit ["CustomNavBarComponent is being destroyed with extra cleanup!"]
          (snd (invoke LSP.NavBarComponentComponent.decl "ngOnDestroy" dyn this w))).
Proof. done. Qed.

Lemma LSP_custom_ngOnDestroy w this :
  instance_of w this "CustomNavBarComponent" = true ->
  call LSP.program this "ngOnDestroy" w
  = (Normal tt,
     emit ["Hell Bhie!";
           "CustomNavBarComponent is being destroyed with extra cleanup!"] w).
Proof.
  intros (o & Ho & Hcls)%instance_of_true.
  rewrite (call_dispatch _ _ _ _ o LSP.CustomNavBarComponent.decl
             LSP.CustomNavBarComponent.ngOnDestroy); [| done | by rewrite Hcls | done].
  rewrite LSP_custom_ngOnDestroy_body.
  unfold invoke, emit; simpl. by rewrite <- app_assoc.
Qed.

Lemma ISP_base_call w this op :
  instance_of w this "NavBarComponentComponent" = true ->
  call ISP.program this (op_name op) w
  = (Normal tt,
     emit [match op with
           | DisplayLinks => "Displaying default navbar links"
           | NgOnDestroy => "Hell Bhie!"
           end] w).
Proof.
  intros (o & Ho & Hcls)%instance_of_true.
  destruct op; simpl.
  - by rewrite (call_dispatch _ _ _ _ o ISP.NavBarComponentComponent.decl
                  ISP.NavBarComponentComponent.displayLinks); [| | rewrite Hcls |].
  - by rewrite (call_dispatch _ _ _ _ o ISP.NavBarComponentComponent.decl
                  ISP.NavBarComponentComponent.ngOnDestroy); [| | rewrite Hcls |].
Qed.

Lemma ISP_custom_call w this op :
  instance_of w this "CustomNavBarComponent" = true ->
  call ISP.program this (op_name op) w
  = (Normal tt,
     emit match op with
          | DisplayLinks => ["Displaying custom navbar links"]
          | NgOnDestroy =>
              ["Hell Bhie!";
               "CustomNavBarComponent is being destroyed with extra cleanup!"]
          end w).
Proof.
  intros (o & Ho & Hcls)%instance_of_true.
  destruct op; simpl.
  - by rewrite (call_dispatch _ _ _ _ o ISP.CustomNavBarComponent.decl
                  ISP.CustomNavBarComponent.displayLinks); [| | rewrite Hcls |].
  - rewrite (call_dispatch _ _ _ _ o ISP.CustomNavBarComponent.decl
               ISP.CustomNavBarComponent.ngOnDestroy); [| done | by rewrite Hcls | done].
    unfold ISP.CustomNavBarComponent.ngOnDestroy, bind; simpl.
    unfold console_log, emit; simpl. by rewrite <- app_assoc.
Qed.

(** The host of the ISP stage constructs the derived component and asks it
    to display its links: the override logs the custom line. *)
Lemma ISP_custom_displayLinks_custom w :
  ISP.construct_and_call ISP.CustomNavBarComponent.new "displayLinks" w
  = (Normal tt,
     emit ["Displaying custom navbar links"] (snd (ISP.CustomNavBarComponent.new w))).
Proof.
  unfold ISP.construct_and_call, bind; simpl.
  apply (ISP_custom_call _ _ DisplayLinks).
  unfold instance_of; simpl. by rewrite lookup_insert_eq.
Qed.

(** ** Schedules *)

(** If every call of a schedule logs its own lines and changes nothing
    else, whatever was logged before it, the schedule logs the lines of its
    calls in order. *)
Lemma run_calls_emit prog (lines : loc * Op -> list string) calls w :
  (forall c msgs, In c calls ->
     call prog (fst c) (op_name (snd c)) (emit msgs w)
     = (Normal tt, emit (lines c) (emit msgs w))) ->
  run_calls prog calls w = (Normal tt, emit (flat_map lines calls) w).
Proof.
  intros Hcall.
  enough (forall msgs,
             run_calls prog calls (emit msgs w)
             = (Normal tt, emit (msgs ++ flat_map lines calls) w)) as H.
  { specialize (H []). by rewrite emit_nil in H. }
  induction calls as [|[this op] rest IH]; intros msgs; simpl.
  - by rewrite app_nil_r.
  - pose proof (Hcall (this, op) msgs (or_introl eq_refl)) as Hhd; simpl in Hhd.
    unfold bind. rewrite Hhd.
    rewrite emit_emit, IH, app_assoc; [done|].
    intros c msgs' Hin. apply Hcall. by right.
Qed.

Lemma DIP_component_emit msgs w this :
  DIP.component (emit msgs w) this = DIP.component w this.
Proof. done. Qed.

Lemma DIP_wired_emit msgs w this :
  DIP.wired (emit msgs w) this = DIP.wired w this.
Proof. done. Qed.

Lemma DIP_run_calls_service w s ops :
  instance_of w s "NavBarService" = true ->
  run_calls DIP.program (map (pair s) ops) w
  = (Normal tt, emit (map service_line ops) w).
Proof.
  intros Hs.
  rewrite (run_calls_emit _ (fun c => [service_line (snd c)])).
  - f_equal. f_equal. induction ops; simpl; congruence.
  - intros [s' op] msgs (op' & [= <- <-] & _)%in_map_iff; simpl.
    by apply DIP_service_call.
Qed.

Lemma scheduled_component w s cs calls c :
  instance_of w s "NavBarService" = true ->
  shares_service w s cs = true ->
  scheduled_on cs calls = true ->
  In c calls ->
  DIP.wired w (fst c) = true /\ injected w (fst c) s = true.
Proof.
  unfold shares_service, scheduled_on. rewrite !forallb_forall.
  intros Hs Hcs Hcalls Hin.
  destruct (proj1 (existsb_exists _ _) (Hcalls _ Hin)) as (c' & Hc' & ->%Pos.eqb_eq).
  destruct (andb_prop _ _ (Hcs _ Hc')) as [Hc Hi].
  eauto using DIP_wired_intro.
Qed.

Lemma injected_get w this s :
  injected w this s = true -> get_navBarService this w = (Normal s, w).
Proof.
  unfold injected, get_navBarService, bind, deref.
  destruct (heap w !! this) as [o|]; [simpl | done].
  destruct (navBarService o) as [s'|]; [| done].
  by intros ->%Pos.eqb_eq.
Qed.

Lemma DIP_effect_of_service w s op :
  instance_of w s "NavBarService" = true ->
  effect_of DIP.program w (s, op) = [service_line op].
Proof.
  intros Hs. unfold effect_of; simpl. unfold bind.
  rewrite (DIP_service_call w s op Hs); simpl. by rewrite emitted_emit.
Qed.

Lemma DIP_run_calls_components w calls :
  (forall c, In c calls -> DIP.wired w (fst c) = true) ->
  run_calls DIP.program calls w
  = (Normal tt, emit (flat_map (fun c => component_lines (snd c)) calls) w).
Proof.
  intros H. apply run_calls_emit.
  intros c msgs Hin. apply DIP_component_call.
  rewrite DIP_wired_emit. by apply H.
Qed.

Lemma DIP_effect_of_component w c :
  DIP.wired w (fst c) = true ->
  effect_of DIP.program w c = component_lines (snd c).
Proof.
  intros H. unfold effect_of.
  rewrite (DIP_run_calls_components w [c]).
  - simpl. by rewrite app_nil_r, emitted_emit.
  - by intros c' [<- | []].
Qed.

Lemma emitted_emit_after msgs w w1 :
  console w1 = console w -> emitted w (emit msgs w1) = msgs.
Proof.
  intros H. unfold emitted, emit; simpl. rewrite H. apply drop_app_length.
Qed.

Lemma flat_map_agree {A B} (f g : A -> list B) l :
  (forall a, In a l -> f a = g a) -> flat_map f l = flat_map g l.
Proof.
  induction l as [|a l IH]; intros H; simpl; [done|].
  rewrite (H a) by (by left). rewrite IH; [done|].
  intros a' Ha'. apply H. by right.
Qed.

Lemma DIP_declared_links_component w this :
  DIP.component w this = true ->
  declared_links DIP.program w this = Some DIP.NavBarComponentComponent.links \/
  declared_links DIP.program w this = Some DIP.CustomNavBarComponent.links.
Proof.
  intros (o & s & Ho & Hcls & _)%DIP_component_inv.
  unfold declared_links. rewrite Ho.
  destruct Hcls as [-> | ->]; [by left | by right].
Qed.

(** ** The claims *)

(** C4. Constructing the base component of the final stage and calling its
    [displayLinks] completes normally and logs exactly the default-links
    line: construction logs nothing, and the call leaves the world that
    construction built unchanged apart from that one line. *)
Theorem DIP_base_displayLinks_logs_default w :
  DIP.construct_and_call DIP.NavBarComponentComponent.new "displayLinks" w
  = (Normal tt,
     emit ["Displaying default navbar links"]
          (snd (DIP.construct DIP.NavBarComponentComponent.new w))) /\
  console (snd (DIP.construct DIP.NavBarComponentComponent.new w)) = console w /\
  emitted w (snd (DIP.construct_and_call DIP.NavBarComponentComponent.new "displayLinks" w))
  = ["Displaying default navbar links"].
Proof.
  destruct (DIP_construct_and_call_spec Base DisplayLinks w) as [Hrun Hcon].
  simpl in Hrun, Hcon. repeat split; [done | done |].
  rewrite Hrun; simpl. by apply emitted_emit_after.
Qed.

(** C1, as the code has it. Constructing [CustomNavBarComponent] of the
    final stage and calling [displayLinks] completes normally and logs
    exactly the default-links line, through the inherited method that
    delegates to [NavBarService]; the custom-links line is not logged. *)
Theorem DIP_custom_displayLinks_logs_default w :
  DIP.construct_and_call DIP.CustomNavBarComponent.new "displayLinks" w
  = (Normal tt,
     emit ["Displaying default navbar links"]
          (snd (DIP.construct DIP.CustomNavBarComponent.new w))) /\
  console (snd (DIP.construct DIP.CustomNavBarComponent.new w)) = console w /\
  emitted w (snd (DIP.construct_and_call DIP.CustomNavBarComponent.new "displayLinks" w))
  = ["Displaying default navbar links"] /\
  ~ In "Displaying custom navbar links"
       (emitted w (snd (DIP.construct_and_call DIP.CustomNavBarComponent.new "displayLinks" w))).
Proof.
  destruct (DIP_construct_and_call_spec Derived DisplayLinks w) as [Hrun Hcon].
  simpl in Hrun, Hcon.
  assert (emitted w (snd (DIP.construct_and_call DIP.CustomNavBarComponent.new
                            "displayLinks" w))
          = ["Displaying default navbar links"]) as Hlog.
  { rewrite Hrun; simpl. by apply emitted_emit_after. }
  repeat split; [done | done | done |].
  rewrite Hlog. by intros [[=] | []].
Qed.

(** C1, as stated, fails on the empty world: the derived component of the
    final stage logs the default-links line, not the custom-links line. *)
Lemma DIP_custom_displayLinks_not_custom :
  ~ (emitted empty_world
       (snd (DIP.construct_and_call DIP.CustomNavBarComponent.new "displayLinks"
               empty_world))
     = ["Displaying custom navbar links"] /\
     ~ In "Displaying default navbar links"
          (emitted empty_world
             (snd (DIP.construct_and_call DIP.CustomNavBarComponent.new "displayLinks"
                     empty_world)))).
Proof. vm_compute. by intros [[=] _]. Qed.

(** C2, as the code has it. One [ngOnDestroy] on an instance of kind [k]:
    - in the final stage, on any component, base or derived (the derived
      class declares no override), that holds a [NavBarService], it logs
      exactly two lines, the service's teardown line and then the
      component's cleanup line;
    - in the historical stage the base logs exactly one teardown line, and
      the derived override, which chains to [super], logs the parent's line
      and then exactly one more. *)
Theorem ngOnDestroy_effects w this k :
  instance_of w this (kind_name k) = true ->
  (DIP.wired w this = true ->
   call DIP.program this "ngOnDestroy" w
   = (Normal tt,
      emit ["NavBarService cleanup performed!";
            "NavBarComponent cleanup performed!"] w)) /\
  call LSP.program this "ngOnDestroy" w
  = (Normal tt,
     emit match k with
          | Base => ["Hell Bhie!"]
          | Derived =>
              ["Hell Bhie!";
               "CustomNavBarComponent is being destroyed with extra cleanup!"]
          end w).
Proof.
  intros Hk. split.
  - intros Hc. apply (DIP_component_call w this NgOnDestroy Hc).
  - destruct k; simpl in Hk.
    + by apply LSP_base_ngOnDestroy.
    + by apply LSP_custom_ngOnDestroy.
Qed.

Lemma ngOnDestroy_effects_witness :
  instance_of sample_world 3 (kind_name Derived) = true /\
  DIP.wired sample_world 3 = true /\
  call DIP.program 3 "ngOnDestroy" sample_world
  = (Normal tt,
     emit ["NavBarService cleanup performed!";
           "NavBarComponent cleanup performed!"] sample_world) /\
  call LSP.program 3 "ngOnDestroy" sample_world
  = (Normal tt,
     emit ["Hell Bhie!";
           "CustomNavBarComponent is being destroyed with extra cleanup!"]
          sample_world).
Proof.
  split; [reflexivity|]. split; [reflexivity|].
  destruct (ngOnDestroy_effects sample_world 3 Derived) as (Hdip & Hlsp);
    [reflexivity|].
  split; [apply Hdip; reflexivity | exact Hlsp].
Defined.

(** C2, as stated, fails on the empty world: destroying the base component
    of the final stage logs two lines, not exactly one. *)
Lemma DIP_base_ngOnDestroy_two_lines :
  ~ (exists line,
       emitted empty_world
         (snd (DIP.construct_and_call DIP.NavBarComponentComponent.new "ngOnDestroy"
                 empty_world))
       = [line]).
Proof. vm_compute. by intros [line [=]]. Qed.

(** C3. In the historical overriding stage, destroying a
    [CustomNavBarComponent] logs the base class's teardown line and then
    the derived extra-cleanup line; the first part is what destroying a
    base instance logs. *)
Theorem LSP_custom_destroy_order w this :
  instance_of w this "CustomNavBarComponent" = true ->
  call LSP.program this "ngOnDestroy" w
  = (Normal tt,
     emit ["Hell Bhie!";
           "CustomNavBarComponent is being destroyed with extra cleanup!"] w) /\
  (forall b,
     instance_of w b "NavBarComponentComponent" = true ->
     call LSP.program this "ngOnDestroy" w
     = (Normal tt,
        emit ["CustomNavBarComponent is being destroyed with extra cleanup!"]
             (snd (call LSP.program b "ngOnDestroy" w)))).
Proof.
  intros Hc. split; [by apply LSP_custom_ngOnDestroy|].
  intros b Hb.
  rewrite (LSP_custom_ngOnDestroy w this Hc), (LSP_base_ngOnDestroy w b Hb); simpl.
  by rewrite emit_emit.
Qed.

Lemma LSP_custom_destroy_order_witness :
  instance_of historical_world 2 "CustomNavBarComponent" = true /\
  call LSP.program 2 "ngOnDestroy" historical_world
  = (Normal tt,
     emit ["Hell Bhie!";
           "CustomNavBarComponent is being destroyed with extra cleanup!"]
          historical_world).
Proof.
  split; [reflexivity|].
  apply (LSP_custom_destroy_order historical_world 2). reflexivity.
Defined.

(** C5. In the final stage [CustomNavBarComponent] declares neither
    operation, both resolve to the base class's methods, and a call on a
    derived instance does exactly what the same call on a base instance
    does, each holding a [NavBarService]. *)
Theorem DIP_custom_same_as_base w c b op :
  instance_of w c "CustomNavBarComponent" = true ->
  DIP.wired w c = true ->
  instance_of w b "NavBarComponentComponent" = true ->
  DIP.wired w b = true ->
  own_method (op_name op) (methods DIP.CustomNavBarComponent.decl) = None /\
  resolve DIP.CustomNavBarComponent.decl (op_name op)
  = resolve DIP.NavBarComponentComponent.decl (op_name op) /\
  call DIP.program c (op_name op) w = call DIP.program b (op_name op) w.
Proof.
  intros _ Hc _ Hb. split; [|split].
  - by destruct op.
  - by destruct op.
  - by rewrite !DIP_component_call.
Qed.

Lemma DIP_custom_same_as_base_witness :
  instance_of sample_world 3 "CustomNavBarComponent" = true /\
  DIP.wired sample_world 3 = true /\
  instance_of sample_world 2 "NavBarComponentComponent" = true /\
  DIP.wired sample_world 2 = true /\
  call DIP.program 3 "ngOnDestroy" sample_world
  = call DIP.program 2 "ngOnDestroy" sample_world.
Proof.
  do 4 (split; [reflexivity|]).
  apply (DIP_custom_same_as_base sample_world 3 2 NgOnDestroy); reflexivity.
Defined.

(** C6. [NavBarService] is stateless: after any history [pre] of its own
    operations, in any order and with any repetition, an operation
    completes normally, logs its one fixed line, which is the line it logs
    without that history, and leaves the heap as it was before the
    history. *)
Theorem NavBarService_stateless w s pre op :
  instance_of w s "NavBarService" = true ->
  run_calls DIP.program (map (pair s) pre) w
  = (Normal tt, emit (map service_line pre) w) /\
  call DIP.program s (op_name op) (snd (run_calls DIP.program (map (pair s) pre) w))
  = (Normal tt,
     emit [service_line op] (snd (run_calls DIP.program (map (pair s) pre) w))) /\
  emitted (snd (run_calls DIP.program (map (pair s) pre) w))
          (snd (call DIP.program s (op_name op)
                  (snd (run_calls DIP.program (map (pair s) pre) w))))
  = emitted w (snd (call DIP.program s (op_name op) w)) /\
  heap (snd (call DIP.program s (op_name op)
               (snd (run_calls DIP.program (map (pair s) pre) w))))
  = heap w.
Proof.
  intros Hs.
  rewrite (DIP_run_calls_service w s pre Hs); simpl.
  rewrite (DIP_service_call (emit (map service_line pre) w) s op)
    by (by rewrite instance_of_emit).
  rewrite (DIP_service_call w s op Hs); simpl.
  by rewrite !emitted_emit.
Qed.

Lemma NavBarService_stateless_witness :
  instance_of sample_world 1 "NavBarService" = true /\
  call DIP.program 1 "displayLinks"
       (snd (run_calls DIP.program
               (map (pair 1%positive) [NgOnDestroy; DisplayLinks; DisplayLinks])
               sample_world))
  = (Normal tt,
     emit ["Displaying default navbar links"]
          (snd (run_calls DIP.program
                  (map (pair 1%positive) [NgOnDestroy; DisplayLinks; DisplayLinks])
                  sample_world))).
Proof.
  split; [reflexivity|].
  apply (NavBarService_stateless sample_world 1
           [NgOnDestroy; DisplayLinks; DisplayLinks] DisplayLinks).
  reflexivity.
Defined.

(** C7. A schedule of N calls on M component instances [cs] that all hold
    the service [s] completes normally and logs the concatenation of what
    each call logs when it runs alone; each call delegates to [s] and logs
    what one invocation of the service alone logs (followed by the
    component's own line on teardown), whatever the instance and its place
    in the schedule, so any reordering of the schedule logs the same lines
    reordered. *)
Theorem shared_service_schedule w s cs calls :
  instance_of w s "NavBarService" = true ->
  shares_service w s cs = true ->
  scheduled_on cs calls = true ->
  run_calls DIP.program calls w
  = (Normal tt, emit (flat_map (effect_of DIP.program w) calls) w) /\
  (forall c, In c calls ->
     get_navBarService (fst c) w = (Normal s, w) /\
     effect_of DIP.program w c
     = (effect_of DIP.program w (s, snd c) ++ component_own_lines (snd c))%list) /\
  (forall calls',
     Permutation calls calls' ->
     run_calls DIP.program calls' w
     = (Normal tt, emit (flat_map (effect_of DIP.program w) calls') w) /\
     Permutation (emitted w (snd (run_calls DIP.program calls w)))
                 (emitted w (snd (run_calls DIP.program calls' w)))).
Proof.
  intros Hs Hcs Hcalls.
  assert (Hcomp : forall c, In c calls -> DIP.wired w (fst c) = true)
    by (intros c Hin; eapply scheduled_component; eauto).
  assert (Heff : forall c, In c calls ->
                   effect_of DIP.program w c = component_lines (snd c))
    by (intros c Hin; apply DIP_effect_of_component; auto).
  assert (Hrun : forall l, (forall c, In c l -> In c calls) ->
                   run_calls DIP.program l w
                   = (Normal tt, emit (flat_map (effect_of DIP.program w) l) w)).
  { intros l Hl. rewrite DIP_run_calls_components by auto.
    f_equal. f_equal. symmetry. apply flat_map_agree. auto. }
  split; [by apply Hrun | split].
  { intros c Hin. split.
    - apply injected_get. eapply scheduled_component; eauto.
    - by rewrite (Heff c Hin), (DIP_effect_of_service w s _ Hs). }
  intros calls' Hperm.
  assert (Hrun' := Hrun calls' (fun c => Permutation_in c (Permutation_sym Hperm))).
  split; [done|].
  rewrite Hrun', (Hrun calls) by done; simpl.
  rewrite !emitted_emit. by apply Permutation_flat_map.
Qed.

Lemma shared_service_schedule_witness :
  instance_of sample_world 1 "NavBarService" = true /\
  shares_service sample_world 1 [2; 3]%positive = true /\
  scheduled_on [2; 3]%positive
    [(3, DisplayLinks); (2, NgOnDestroy); (3, NgOnDestroy)]%positive = true /\
  run_calls DIP.program
    [(3, DisplayLinks); (2, NgOnDestroy); (3, NgOnDestroy)]%positive sample_world
  = (Normal tt,
     emit (flat_map (effect_of DIP.program sample_world)
             [(3, DisplayLinks); (2, NgOnDestroy); (3, NgOnDestroy)]%positive)
          sample_world).
Proof.
  do 3 (split; [reflexivity|]).
  apply (shared_service_schedule sample_world 1 [2; 3]%positive); reflexivity.
Defined.

(** C8. On every component instance of the final stage that holds a
    [NavBarService], [displayLinks] completes normally and its only effect
    is the one logged line: the heap is unchanged, so every instance
    declares the link list it declared before, which is the template of its
    class. *)
Theorem displayLinks_frame w this :
  DIP.wired w this = true ->
  call DIP.program this "displayLinks" w
  = (Normal tt, emit ["Displaying default navbar links"] w) /\
  heap (snd (call DIP.program this "displayLinks" w)) = heap w /\
  (forall c,
     declared_links DIP.program (snd (call DIP.program this "displayLinks" w)) c
     = declared_links DIP.program w c) /\
  (declared_links DIP.program w this = Some DIP.NavBarComponentComponent.links \/
   declared_links DIP.program w this = Some DIP.CustomNavBarComponent.links).
Proof.
  intros Hc.
  pose proof (DIP_component_call w this DisplayLinks Hc) as Hrun.
  cbn [op_name] in Hrun. rewrite Hrun; simpl.
  repeat split; auto using DIP_declared_links_component, DIP_wired_component.
Qed.

Lemma displayLinks_frame_witness :
  DIP.wired sample_world 3 = true /\
  call DIP.program 3 "displayLinks" sample_world
  = (Normal tt, emit ["Displaying default navbar links"] sample_world) /\
  declared_links DIP.program
    (snd (call DIP.program 3 "displayLinks" sample_world)) 3
  = Some DIP.CustomNavBarComponent.links.
Proof.
  split; [reflexivity|].
  destruct (displayLinks_frame sample_world 3) as (Hrun & _ & Hlinks & _);
    [reflexivity|].
  split; [exact Hrun|]. rewrite Hlinks. reflexivity.
Defined.

(** C9. Every operation of the final stage is total: on the service and on
    a component of either class that holds a service, [displayLinks] and
    [ngOnDestroy] complete normally, never throw, only log, and leave every
    object a valid receiver; the service's own methods complete normally on
    any receiver and in any world, and so does an operation on a component
    the host has just constructed, from any world. *)
Theorem operations_total w this op :
  DIP.wired_receiver w this = true ->
  (exists msgs,
     call DIP.program this (op_name op) w = (Normal tt, emit msgs w) /\
     forall r, DIP.wired_receiver (emit msgs w) r = DIP.wired_receiver w r) /\
  (forall dyn l w',
     fst (DIP.NavBarService.displayLinks dyn l w') = Normal tt /\
     fst (DIP.NavBarService.ngOnDestroy dyn l w') = Normal tt) /\
  (forall k w',
     fst (DIP.construct_and_call (DIP.new_component k) (op_name op) w') = Normal tt).
Proof.
  intros Hr. split; [|split; [done|]]; cycle 1.
  { intros k w'. by rewrite (proj1 (DIP_construct_and_call_spec k op w')). }
  unfold DIP.wired_receiver in Hr. apply orb_prop in Hr as [Hs | Hc].
  - exists [service_line op]. split; [by apply DIP_service_call | done].
  - exists (component_lines op). split; [by apply DIP_component_call | done].
Qed.

Lemma operations_total_witness :
  DIP.wired_receiver sample_world 2 = true /\
  exists msgs,
    call DIP.program 2 (op_name NgOnDestroy) sample_world
    = (Normal tt, emit msgs sample_world).
Proof.
  split; [reflexivity|].
  destruct (operations_total sample_world 2 NgOnDestroy) as [(msgs & Hrun & _) _];
    [reflexivity|].
  exists msgs. exact Hrun.
Defined.

(** C10. In the final stage every [ngOnDestroy] of a component reads the
    injected service, runs the service's [ngOnDestroy] first and logs the
    component's own cleanup line after it: the service's line always
    precedes the component's. *)
Theorem ngOnDestroy_service_first w this s :
  DIP.component w this = true ->
  injected w this s = true ->
  instance_of w s "NavBarService" = true ->
  get_navBarService this w = (Normal s, w) /\
  call DIP.program this "ngOnDestroy" w
  = (Normal tt,
     emit ["NavBarComponent cleanup performed!"]
          (snd (call DIP.program s "ngOnDestroy" w))) /\
  call DIP.program s "ngOnDestroy" w
  = (Normal tt, emit ["NavBarService cleanup performed!"] w) /\
  emitted w (snd (call DIP.program this "ngOnDestroy" w))
  = ["NavBarService cleanup performed!"; "NavBarComponent cleanup performed!"].
Proof.
  intros Hc Hi Hs. split; [by apply injected_get|].
  pose proof (DIP_component_call w this NgOnDestroy
                (DIP_wired_intro w this s Hc Hi Hs)) as Hrun.
  pose proof (DIP_service_call w s NgOnDestroy Hs) as Hsvc.
  cbn [op_name] in Hrun, Hsvc.
  rewrite Hrun, Hsvc; simpl. rewrite emitted_emit, emit_emit.
  by repeat split.
Qed.

Lemma ngOnDestroy_service_first_witness :
  DIP.component sample_world 2 = true /\
  injected sample_world 2 1 = true /\
  instance_of sample_world 1 "NavBarService" = true /\
  emitted sample_world (snd (call DIP.program 2 "ngOnDestroy" sample_world))
  = ["NavBarService cleanup performed!"; "NavBarComponent cleanup performed!"].
Proof.
  do 3 (split; [reflexivity|]).
  apply (ngOnDestroy_service_first sample_world 2 1); reflexivity.
Defined.

(** ** Further properties of the code *)

Lemma DIP_new_component_eq k s w :
  DIP.new_component k s w
  = (Normal (fresh (dom (heap w))),
     mkWorld (console w)
       (<[fresh (dom (heap w)) := mkObj (kind_name k) (Some s)]> (heap w))).
Proof. destruct k; [apply DIP_new_base | apply DIP_new_custom]. Qed.

Lemma receiver_in_heap w r :
  DIP.receiver w r = true -> is_Some (heap w !! r).
Proof.
  unfold DIP.receiver, DIP.component, instance_of.
  destruct (heap w !! r); [eauto | done].
Qed.

(** What the predicates on an object say depends on that object only. *)
Lemma lookup_eq_predicates w w' s l :
  heap w' !! l = heap w !! l ->
  DIP.component w' l = DIP.component w l /\
  injected w' l s = injected w l s /\
  DIP.receiver w' l = DIP.receiver w l.
Proof.
  intros H. unfold DIP.receiver, DIP.component, injected, instance_of.
  by rewrite H.
Qed.

(** X1. [new NavBarComponentComponent(s)] and [new CustomNavBarComponent(s)]
    (whose constructor only calls [super(s)]) complete normally, create one
    object that did not exist, of the class asked for, log nothing, leave
    every other object as it was, and store [s]: reading
    [this.navBarService] on the new object gives [s] back. *)
Theorem DIP_new_component_stores_service k s w :
  exists c w',
    DIP.new_component k s w = (Normal c, w') /\
    heap w !! c = None /\
    console w' = console w /\
    instance_of w' c (kind_name k) = true /\
    get_navBarService c w' = (Normal s, w') /\
    (forall l, l <> c -> heap w' !! l = heap w !! l).
Proof.
  eexists _, _. split; [apply DIP_new_component_eq|].
  split; [apply alloc_fresh|]. split; [done|].
  split; [|split].
  - unfold instance_of; simpl. rewrite lookup_insert_eq; simpl.
    apply String.eqb_refl.
  - unfold get_navBarService, bind, deref; simpl. by rewrite lookup_insert_eq.
  - intros l Hl; simpl. by rewrite lookup_insert_ne.
Qed.

(** X2. Constructing one more component with the service [s] keeps what the
    host already has: the new instance is none of the instances [cs] that
    share [s], it shares [s] with them, and every object that was a valid
    receiver still is. *)
Theorem DIP_new_component_shares k s cs w :
  shares_service w s cs = true ->
  exists c w',
    DIP.new_component k s w = (Normal c, w') /\
    ~ In c cs /\
    shares_service w' s (c :: cs) = true /\
    (forall r, DIP.receiver w r = true -> DIP.receiver w' r = true).
Proof.
  intros Hcs.
  set (c := fresh (dom (heap w))).
  set (w' := mkWorld (console w) (<[c := mkObj (kind_name k) (Some s)]> (heap w))).
  assert (Hframe : forall l, is_Some (heap w !! l) -> heap w' !! l = heap w !! l).
  { intros l [o Ho]. subst w'; simpl. apply lookup_insert_ne.
    intros <-. pose proof (alloc_fresh w) as Hf. fold c in Hf. congruence. }
  assert (Hold : forall c', In c' cs ->
                   DIP.component w c' = true /\ injected w c' s = true).
  { intros c' Hin. unfold shares_service in Hcs.
    rewrite forallb_forall in Hcs. by apply andb_prop, Hcs. }
  assert (Hheap : forall c', In c' cs -> is_Some (heap w !! c')).
  { intros c' Hin. apply receiver_in_heap. unfold DIP.receiver.
    rewrite (proj1 (Hold c' Hin)). apply orb_true_r. }
  exists c, w'. split; [apply DIP_new_component_eq|]. split; [|split].
  - intros Hin. destruct (Hheap c Hin) as [o Ho].
    pose proof (alloc_fresh w) as Hf. fold c in Hf. congruence.
  - simpl. apply andb_true_intro; split.
    + unfold DIP.component, injected, instance_of; subst w'; simpl.
      rewrite lookup_insert_eq; simpl. rewrite Pos.eqb_refl.
      destruct k; simpl; done.
    + apply forallb_forall. intros c' Hin.
      destruct (lookup_eq_predicates w w' s c' (Hframe c' (Hheap c' Hin)))
        as (-> & -> & _).
      by apply andb_true_intro, Hold.
  - intros r Hr.
    destruct (lookup_eq_predicates w w' s r (Hframe r (receiver_in_heap w r Hr)))
      as (_ & _ & ->).
    done.
Qed.

Lemma DIP_new_component_shares_witness :
  shares_service sample_world 1 [2; 3]%positive = true /\
  exists c w',
    DIP.new_component Base 1%positive sample_world = (Normal c, w') /\
    ~ In c [2; 3]%positive /\
    shares_service w' 1 (c :: [2; 3]%positive) = true.
Proof.
  split; [reflexivity|].
  destruct (DIP_new_component_shares Base 1%positive [2; 3]%positive sample_world)
    as (c & w' & Hrun & Hnew & Hshare & _); [reflexivity|].
  exists c, w'. auto.
Defined.

(** X3. [new NavBarService()] completes normally, creates one object that
    did not exist, logs nothing and leaves every other object as it was;
    both operations then work on the new service and log its fixed lines. *)
Theorem DIP_new_service_ready w :
  exists s w',
    DIP.NavBarService.new w = (Normal s, w') /\
    heap w !! s = None /\
    console w' = console w /\
    (forall l, l <> s -> heap w' !! l = heap w !! l) /\
    (forall op,
       call DIP.program s (op_name op) w' = (Normal tt, emit [service_line op] w')).
Proof.
  eexists _, _. split; [apply DIP_new_service|].
  split; [apply alloc_fresh|]. split; [done|]. split.
  - intros l Hl; simpl. by rewrite lookup_insert_ne.
  - intros op. apply DIP_service_call.
    unfold instance_of; simpl. by rewrite lookup_insert_eq.
Qed.

Lemma unwired_get w this o :
  heap w !! this = Some o -> navBarService o = None ->
  get_navBarService this w
  = (Throw "TypeError: Cannot read properties of undefined", w).
Proof.
  intros Ho Hn. unfold get_navBarService, bind, deref.
  rewrite Ho; cbn beta iota. by rewrite Hn.
Qed.

(** X4. A component of the final stage whose [navBarService] is absent
    cannot delegate: both operations throw a [TypeError] on reading the
    service, before anything is logged, so [ngOnDestroy] does not log the
    component's own cleanup line either, and the world is unchanged. *)
Theorem DIP_unwired_component_throws w this k op :
  instance_of w this (kind_name k) = true ->
  unwired w this = true ->
  call DIP.program this (op_name op) w
  = (Throw "TypeError: Cannot read properties of undefined", w).
Proof.
  intros (o & Ho & Hcls)%instance_of_true Hun.
  unfold unwired in Hun. rewrite Ho in Hun. apply bool_decide_eq_true in Hun.
  assert (exists C, find_class DIP.program (cls o) = Some C /\
            resolve C "displayLinks" = Some DIP.NavBarComponentComponent.displayLinks /\
            resolve C "ngOnDestroy" = Some DIP.NavBarComponentComponent.ngOnDestroy)
    as (C & HC & Hd & Hn).
  { rewrite Hcls. destruct k.
    - by exists DIP.NavBarComponentComponent.decl.
    - by exists DIP.CustomNavBarComponent.decl. }
  destruct op; cbn [op_name].
  - rewrite (call_dispatch _ _ _ _ o C _ Ho HC Hd).
    unfold DIP.NavBarComponentComponent.displayLinks, bind.
    by rewrite (unwired_get w this o Ho Hun).
  - rewrite (call_dispatch _ _ _ _ o C _ Ho HC Hn).
    unfold DIP.NavBarComponentComponent.ngOnDestroy, bind.
    by rewrite (unwired_get w this o Ho Hun).
Qed.

Lemma DIP_unwired_component_throws_witness :
  instance_of historical_world 2 (kind_name Derived) = true /\
  unwired historical_world 2 = true /\
  call DIP.program 2 (op_name NgOnDestroy) historical_world
  = (Throw "TypeError: Cannot read properties of undefined", historical_world).
Proof.
  do 2 (split; [reflexivity|]).
  apply (DIP_unwired_component_throws historical_world 2 Derived NgOnDestroy);
    reflexivity.
Defined.

(** X5. In the ISP stage the derived component overrides both operations in
    two different ways: [displayLinks] does not chain, so it logs the
    custom-links line only and never the base's default-links line, while
    [ngOnDestroy] chains to [super], so it logs what the base logs and then
    its extra-cleanup line. *)
Theorem ISP_custom_overrides w d b :
  instance_of w d "CustomNavBarComponent" = true ->
  instance_of w b "NavBarComponentComponent" = true ->
  call ISP.program d "displayLinks" w
  = (Normal tt, emit ["Displaying custom navbar links"] w) /\
  call ISP.program b "displayLinks" w
  = (Normal tt, emit ["Displaying default navbar links"] w) /\
  ~ In "Displaying default navbar links"
       (emitted w (snd (call ISP.program d "displayLinks" w))) /\
  call ISP.program d "ngOnDestroy" w
  = (Normal tt,
     emit ["CustomNavBarComponent is being destroyed with extra cleanup!"]
          (snd (call ISP.program b "ngOnDestroy" w))).
Proof.
  intros Hd Hb.
  pose proof (ISP_custom_call w d DisplayLinks Hd) as Hdd.
  pose proof (ISP_custom_call w d NgOnDestroy Hd) as Hdn.
  pose proof (ISP_base_call w b DisplayLinks Hb) as Hbd.
  pose proof (ISP_base_call w b NgOnDestroy Hb) as Hbn.
  simpl in Hdd, Hdn, Hbd, Hbn.
  rewrite Hdd, Hdn, Hbd, Hbn; simpl. rewrite emitted_emit, emit_emit.
  repeat split. by intros [[=] | []].
Qed.

Lemma ISP_custom_overrides_witness :
  instance_of historical_world 2 "CustomNavBarComponent" = true /\
  instance_of historical_world 1 "NavBarComponentComponent" = true /\
  call ISP.program 2 "displayLinks" historical_world
  = (Normal tt, emit ["Displaying custom navbar links"] historical_world).
Proof.
  do 2 (split; [reflexivity|]).
  apply (ISP_custom_overrides historical_world 2 1); reflexivity.
Defined.

(** X6. Moving [displayLinks] into the service (ISP stage to final stage)
    kept what the base component logs and changed what the derived
    component logs: a base instance that holds a [NavBarService] does
    exactly the same in both stages, a derived instance logged the
    custom-links line before and logs the default-links line now. *)
Theorem DIP_refactoring_displayLinks w this k :
  instance_of w this (kind_name k) = true ->
  DIP.wired w this = true ->
  match k with
  | Base =>
      call DIP.program this "displayLinks" w = call ISP.program this "displayLinks" w
  | Derived =>
      call ISP.program this "displayLinks" w
      = (Normal tt, emit ["Displaying custom navbar links"] w) /\
      call DIP.program this "displayLinks" w
      = (Normal tt, emit ["Displaying default navbar links"] w)
  end.
Proof.
  intros Hk Hc.
  pose proof (DIP_component_call w this DisplayLinks Hc) as Hdip.
  cbn [op_name] in Hdip.
  destruct k; simpl in Hk.
  - pose proof (ISP_base_call w this DisplayLinks Hk) as Hisp.
    cbn [op_name] in Hisp. by rewrite Hdip, Hisp.
  - split; [apply (ISP_custom_call w this DisplayLinks Hk) | done].
Qed.

Lemma DIP_refactoring_displayLinks_witness :
  instance_of sample_world 2 (kind_name Base) = true /\
  DIP.wired sample_world 2 = true /\
  call DIP.program 2 "displayLinks" sample_world
  = call ISP.program 2 "displayLinks" sample_world.
Proof.
  do 2 (split; [reflexivity|]).
  apply (DIP_refactoring_displayLinks sample_world 2 Base); reflexivity.
Defined.

(** *** Operations only log *)

Lemma logs_only_ret {A} (a : A) : logs_only (ret a).
Proof. by intros w. Qed.

Lemma logs_only_throw {A} e : logs_only (@throw A e).
Proof. by intros w. Qed.

Lemma logs_only_console_log s : logs_only (console_log s).
Proof. intros w; simpl. split; [done | by apply prefix_app_r]. Qed.

Lemma logs_only_deref this : logs_only (deref this).
Proof. intros w. unfold deref. by destruct (heap w !! this). Qed.

Lemma logs_only_bind {A B} (c : M A) (k : A -> M B) :
  logs_only c -> (forall a, logs_only (k a)) -> logs_only (bind c k).
Proof.
  intros Hc Hk w. unfold bind.
  destruct (Hc w) as [Hh Hp].
  destruct (c w) as [[a|e] w1]; simpl in *; [|done].
  destruct (Hk a w1) as [Hh' Hp'].
  split; [congruence | by etrans].
Qed.

Lemma logs_only_get_navBarService this : logs_only (get_navBarService this).
Proof.
  apply logs_only_bind; [apply logs_only_deref|].
  intros o. destruct (navBarService o);
    [apply logs_only_ret | apply logs_only_throw].
Qed.

Ltac logs_only_body :=
  repeat first
    [ apply logs_only_console_log
    | apply logs_only_get_navBarService
    | apply logs_only_throw
    | apply logs_only_ret
    | apply logs_only_bind; [|intros ?] ].

Lemma own_method_In m ms f :
  own_method m ms = Some f -> In f (map snd ms).
Proof.
  induction ms as [|[n g] ms IH]; simpl; [done|].
  destruct (String.eqb n m); [intros [= ->]; by left | right; auto].
Qed.

Lemma resolve_all_methods :
  forall C m f, resolve C m = Some f -> In f (all_methods C).
Proof.
  fix IH 1. intros [n parent t ms] m f. cbn [resolve all_methods].
  rewrite in_app_iff.
  destruct (own_method m ms) as [g|] eqn:Hown.
  - intros [= ->]. left. by eapply own_method_In.
  - destruct parent as [P|]; [|done]. intros H. right. by eapply IH.
Qed.

Lemma find_class_In prog n C :
  find_class prog n = Some C -> In C prog.
Proof.
  induction prog as [|D prog IH]; cbn [find_class]; [done|].
  destruct (String.eqb (name D) n); [intros [= ->]; by left | right; auto].
Qed.

(** Whatever name is looked up in whatever class of the final stage, the
    method found only logs, provided the calls it makes only log. *)
Lemma DIP_invoke_logs_only n C m dyn this :
  find_class DIP.program n = Some C ->
  (forall l m', logs_only (dyn l m')) ->
  logs_only (invoke C m dyn this).
Proof.
  intros HC%find_class_In Hdyn. unfold invoke.
  destruct (resolve C m) as [f|] eqn:Hf; [|apply logs_only_throw].
  apply resolve_all_methods in Hf.
  assert (In f [DIP.NavBarService.displayLinks; DIP.NavBarService.ngOnDestroy;
                DIP.NavBarComponentComponent.ngOnDestroy;
                DIP.NavBarComponentComponent.displayLinks]) as Hin.
  { destruct HC as [<- | [<- | [<- | []]]]; simpl in Hf; simpl; tauto. }
  destruct Hin as [<- | [<- | [<- | [<- | []]]]];
    unfold DIP.NavBarComponentComponent.ngOnDestroy,
      DIP.NavBarComponentComponent.displayLinks,
      DIP.NavBarService.ngOnDestroy, DIP.NavBarService.displayLinks;
    logs_only_body; apply Hdyn.
Qed.

Lemma DIP_call_depth_logs_only d :
  forall this m, logs_only (call_depth DIP.program d this m).
Proof.
  induction d as [|d IH]; intros this m; cbn [call_depth].
  - apply logs_only_throw.
  - apply logs_only_bind; [apply logs_only_deref|].
    intros o. destruct (find_class DIP.program (cls o)) as [C|] eqn:HC;
      [by eapply DIP_invoke_logs_only | apply logs_only_throw].
Qed.

Lemma DIP_call_logs_only this m : logs_only (call DIP.program this m).
Proof. apply DIP_call_depth_logs_only. Qed.

(** X7. No operation of the final stage ever touches the heap or rewrites
    the console: whatever objects a schedule of calls is made on, valid
    receivers or not, and whether it completes or throws, it leaves the
    heap unchanged and the console it found is a prefix of the console it
    leaves; the same holds for one call of any method name. *)
Theorem DIP_calls_only_log calls w :
  heap (snd (run_calls DIP.program calls w)) = heap w /\
  console w `prefix_of` console (snd (run_calls DIP.program calls w)) /\
  (forall this m, logs_only (call DIP.program this m)).
Proof.
  enough (logs_only (run_calls DIP.program calls)) as H.
  { destruct (H w). auto using DIP_call_logs_only. }
  induction calls as [|[this op] rest IH]; simpl.
  - apply logs_only_ret.
  - apply logs_only_bind; [apply DIP_call_logs_only | done].
Qed.

(** X9. [ngOnDestroy] has no once-only guard: called [n] times on the same
    component that holds a [NavBarService], it completes normally every
    time and logs the service's teardown line and the component's cleanup
    line [n] times over. *)
Theorem DIP_repeated_teardown w this n :
  DIP.wired w this = true ->
  run_calls DIP.program (replicate n (this, NgOnDestroy)) w
  = (Normal tt,
     emit (concat (replicate n ["NavBarService cleanup performed!";
                                "NavBarComponent cleanup performed!"])) w) /\
  length (emitted w (snd (run_calls DIP.program (replicate n (this, NgOnDestroy)) w)))
  = 2 * n.
Proof.
  intros Hc.
  rewrite DIP_run_calls_components.
  - assert (flat_map (fun c : loc * Op => component_lines (snd c))
              (replicate n (this, NgOnDestroy))
            = concat (replicate n ["NavBarService cleanup performed!";
                                   "NavBarComponent cleanup performed!"])) as ->.
    { induction n as [|n IH]; simpl; [done | by rewrite IH]. }
    split; [done|]. simpl. rewrite emitted_emit.
    induction n as [|n IH]; simpl; [done | rewrite IH; lia].
  - intros c Hin. apply list_elem_of_In, elem_of_replicate in Hin as [-> _]. done.
Qed.

Lemma DIP_repeated_teardown_witness :
  DIP.wired sample_world 3 = true /\
  length (emitted sample_world
            (snd (run_calls DIP.program (replicate 3 (3%positive, NgOnDestroy))
                    sample_world)))
  = 2 * 3.
Proof.
  split; [reflexivity|].
  apply (DIP_repeated_teardown sample_world 3 3). reflexivity.
Defined.
